(** * A shallow embedding of [Buffer] (src/code/buffer/buffer.cpp)

    The buffer is a [std::vector<char> buffer_] with two [size_t]
    cursors [readPos_] and [writePos_].  We model:
    - [char] as [Byte.byte], the vector as a [list byte];
    - [size_t] values as [Z] in [0, 2^64), with the wrap-around of
      unsigned arithmetic written out by [wrap];
    - [assert] failures and C++ exceptions (the [std::length_error] of
      [vector::resize] beyond [max_size()]) as [None];
      an allocation that is within [max_size()] is assumed to succeed;
    - the [readv]/[write] system calls by their outcome, passed as an
      argument: either an error code or the bytes actually transferred. *)

From Stdlib Require Import ZArith Lia.
From stdpp Require Import base list.

Open Scope Z_scope.

Abbreviation byte := Byte.byte.

(** ** Machine integers *)

Definition size_t_modulus : Z := 2 ^ 64.

(** Unsigned [size_t] wrap-around. *)
Definition wrap (z : Z) : Z := z mod size_t_modulus.

(** [std::vector<char>::max_size()] (libstdc++: [PTRDIFF_MAX]). *)
Definition max_size : Z := 2 ^ 63 - 1.

(** ** The buffer object *)

Record Buffer := mkBuffer {
  buffer_ : list byte;
  readPos_ : Z;
  writePos_ : Z
}.

Definition size (b : Buffer) : Z := Z.of_nat (length (buffer_ b)).

(** [std::vector::resize(n)]: truncate or extend with zero bytes;
    throws [length_error] when [n > max_size()]. *)
Definition vec_resize (n : Z) (l : list byte) : option (list byte) :=
  if max_size <? n then None else Some (resize (Z.to_nat n) Byte.x00 l).

(** [std::copy(first, last, d_first)] inside one array: the forward
    element-by-element loop [*d_first++ = *first++], each read taken from
    the array as already updated by the previous iterations. *)
Fixpoint copy_within (n src dst : nat) (l : list byte) : list byte :=
  match n with
  | O => l
  | S n' =>
      let l' := match l !! src with
                | Some x => <[dst := x]> l
                | None => l
                end in
      copy_within n' (S src) (S dst) l'
  end.

(** [std::copy(str, str + n, d_first)] from a separate source array. *)
Fixpoint copy_from (str : list byte) (n dst : nat) (l : list byte) {struct n} : list byte :=
  match n with
  | O => l
  | S n' =>
      match str with
      | x :: str' => copy_from str' n' (S dst) (<[dst := x]> l)
      | [] => l
      end
  end.

(** Reading [n] bytes through a pointer to index [p] of the storage. *)
Definition read_bytes (b : Buffer) (p n : Z) : list byte :=
  take (Z.to_nat n) (drop (Z.to_nat p) (buffer_ b)).

(** [Buffer::Buffer(int initBuffSize)]: the [int] is converted to
    [size_type]; a negative value becomes huge and the vector constructor
    throws. *)
Definition Buffer_new (initBuffSize : Z) : option Buffer :=
  if initBuffSize <? 0 then None
  else if max_size <? initBuffSize then None
  else Some (mkBuffer (replicate (Z.to_nat initBuffSize) Byte.x00) 0 0).

Definition WritableBytes (b : Buffer) : Z := wrap (size b - writePos_ b).

Definition ReadableBytes (b : Buffer) : Z := wrap (writePos_ b - readPos_ b).

Definition PrependableBytes (b : Buffer) : Z := readPos_ b.

(** [Peek] and [BeginWrite] return pointers; we return the index. *)
Definition Peek (b : Buffer) : Z := readPos_ b.

Definition BeginWrite (b : Buffer) : Z := writePos_ b.

(** The readable region, as the code reads it through [Peek()]. *)
Definition readable (b : Buffer) : list byte :=
  read_bytes b (Peek b) (ReadableBytes b).

Definition MakeSpace_ (b : Buffer) (len : Z) : option Buffer :=
  if wrap (WritableBytes b + PrependableBytes b) <? len then
    l ← vec_resize (wrap (writePos_ b + len + 1)) (buffer_ b);
    Some (mkBuffer l (readPos_ b) (writePos_ b))
  else
    let readable := ReadableBytes b in
    let l := copy_within (Z.to_nat (writePos_ b - readPos_ b))
                         (Z.to_nat (readPos_ b)) 0 (buffer_ b) in
    let b' := mkBuffer l 0 readable in
    if readable =? ReadableBytes b' then Some b' else None.

Definition EnsureWriteable (b : Buffer) (len : Z) : option Buffer :=
  b' ← (if WritableBytes b <? len then MakeSpace_ b len else Some b);
  if len <=? WritableBytes b' then Some b' else None.

Definition HasWritten (b : Buffer) (len : Z) : Buffer :=
  mkBuffer (buffer_ b) (readPos_ b) (wrap (writePos_ b + len)).

Definition Retrieve (b : Buffer) (len : Z) : Buffer :=
  mkBuffer (buffer_ b) (wrap (readPos_ b + len)) (writePos_ b).

(** [RetrieveUntil(const char *end)], [end] given as an index. *)
Definition RetrieveUntil (b : Buffer) (end_ : Z) : option Buffer :=
  if Peek b <=? end_ then Some (Retrieve b (wrap (end_ - Peek b))) else None.

Definition RetrieveAll (b : Buffer) : Buffer :=
  mkBuffer (replicate (length (buffer_ b)) Byte.x00) 0 0.

Definition RetrieveAllToStr (b : Buffer) : list byte * Buffer :=
  let str := read_bytes b (Peek b) (ReadableBytes b) in
  (str, RetrieveAll b).

(** [Append(const char *str, size_t len)]; [str] is the source array. *)
Definition Append_ptr (b : Buffer) (str : list byte) (len : Z) : option Buffer :=
  b1 ← EnsureWriteable b len;
  let b2 := mkBuffer (copy_from str (Z.to_nat len) (Z.to_nat (BeginWrite b1))
                                (buffer_ b1))
                     (readPos_ b1) (writePos_ b1) in
  Some (HasWritten b2 len).

(** [Append(const std::string &)] and [Append(const void *, size_t)]
    for a whole byte sequence. *)
Definition Append (b : Buffer) (str : list byte) : option Buffer :=
  Append_ptr b str (Z.of_nat (length str)).

(** [Append(const Buffer &buff)] for a [buff] that is another object than
    [*this]: [buff.Peek()] and [buff.ReadableBytes()] name storage that
    [EnsureWriteable] on [*this] does not touch, so the bytes copied are
    [buff]'s readable bytes as they were at the call.  ([b.Append(b)],
    where [Peek()] points into the storage [MakeSpace_] moves, is not
    covered by this definition.) *)
Definition Append_buf (b other : Buffer) : option Buffer :=
  Append_ptr b (drop (Z.to_nat (Peek other)) (buffer_ other))
             (ReadableBytes other).

(** ** Descriptor I/O *)

(** Outcome of one system call: [-1] with [errno], or the bytes moved. *)
Inductive sys_result :=
| SysErr (errno : Z)
| SysOk (data : list byte).

(** [char buff[65535]], the local array of [ReadFd]. *)
Definition scratch_size : Z := 65535.

(** [iov[0].iov_len] and [iov[1].iov_len] of the scatter read. *)
Definition ReadFd_iov (b : Buffer) : list Z := [WritableBytes b; scratch_size].

(** The contract of [readv(fd, iov, 2)]: at most the total iovec length. *)
Definition readv_fits (b : Buffer) (data : list byte) : Prop :=
  Z.of_nat (length data) <= fold_right Z.add 0 (ReadFd_iov b).

(** [ssize_t Buffer::ReadFd(int fd, int *Errno)]: returns the result of
    [readv], the value stored through [Errno] (if any) and the new buffer.
    [readv] scatters the bytes first over the writable region, then over
    the local [buff]. *)
Definition ReadFd (b : Buffer) (r : sys_result) : option (Z * option Z * Buffer) :=
  let writeable := WritableBytes b in
  match r with
  | SysErr e => Some (-1, Some e, b)
  | SysOk data =>
      let len := Z.of_nat (length data) in
      let l := copy_from data (Z.to_nat writeable) (Z.to_nat (BeginWrite b))
                         (buffer_ b) in
      let buff := drop (Z.to_nat writeable) data in
      if len <=? writeable then
        Some (len, None, mkBuffer l (readPos_ b) (wrap (writePos_ b + len)))
      else
        b' ← Append_ptr (mkBuffer l (readPos_ b) (size b)) buff (len - writeable);
        Some (len, None, b')
  end.

(** [ssize_t Buffer::WriteFd(int fd, int *Errno)]; on success [data] is
    the prefix of [Peek()..] that [write] accepted. *)
Definition WriteFd (b : Buffer) (r : sys_result) : Z * option Z * Buffer :=
  match r with
  | SysErr e => (-1, Some e, b)
  | SysOk data =>
      let len := Z.of_nat (length data) in
      (len, None, Retrieve b len)
  end.

(** The contract of [write(fd, Peek(), ReadableBytes())]: the bytes
    written are a prefix of the readable region. *)
Definition write_fits (b : Buffer) (data : list byte) : Prop :=
  data `prefix_of` readable b.

(** [readv(fd, iov, 2)] on a descriptor with the bytes [pending] ready
    and no error (a file, or a pipe whose writer has already written
    them): it moves as many of them as the iovecs hold, in order, filling
    [iov[0]] first and then [iov[1]]. *)
Definition readv (iov : list Z) (pending : list byte) : sys_result :=
  SysOk (take (Z.to_nat (fold_right Z.add 0 iov)) pending).

(** One [ReadFd] call on such a descriptor: [readv] gets the two iovecs
    [ReadFd] builds, the writable region and the local [buff]. *)
Definition ReadFd_ready (b : Buffer) (pending : list byte) :
  option (Z * option Z * Buffer) :=
  ReadFd b (readv (ReadFd_iov b) pending).

(** ** The cursor invariant of the layout comment
    [0 <= readerIndex <= writerIndex <= size], with [size <= max_size]. *)
Definition inv (b : Buffer) : Prop :=
  0 <= readPos_ b <= writePos_ b /\ writePos_ b <= size b /\ size b <= max_size.

(** ** Concrete buffers used by the counterexamples and witnesses *)

(** [Buffer(10)] after [Append("hello")]. *)
Definition hello : list byte := [Byte.x68; Byte.x65; Byte.x6c; Byte.x6c; Byte.x6f].

Definition cx_buf : Buffer := mkBuffer (hello ++ replicate 5 Byte.x00) 0 5.

(** [2^64 - 3], a [size_t] value for which [writePos_ + len + 1]
    wraps around in [MakeSpace_]. *)
Definition huge_len : Z := size_t_modulus - 3.

(** The state [EnsureWriteable(2^64 - 3)] returns on [cx_buf]. *)
Definition cx_overflowed : Buffer := mkBuffer (take 3 (buffer_ cx_buf)) 0 5.

Definition rd_data : list byte := hello ++ [Byte.x21; Byte.x21; Byte.x21].

Definition rd_result : Buffer :=
  mkBuffer (hello ++ rd_data ++ [Byte.x00]) 0 13.

(** [cx_buf] after a 2-byte [WriteFd]: "llo" readable from offset 2. *)
Definition cx_drained2 : Buffer := mkBuffer (buffer_ cx_buf) 2 5.

(** 65541 bytes ready on a descriptor: more than [WritableBytes() + 65536]
    for [cx_buf]. *)
Definition pending_big : list byte := replicate (Z.to_nat 65541) Byte.x61.

(** * Properties of the copy loops *)

Section CopyLoops.
Local Open Scope nat_scope.

Lemma insert_split (l : list byte) i x :
  i < length l →
  take (S i) (<[i := x]> l) = take i l ++ [x] ∧
  (∀ k, i < k → drop k (<[i := x]> l) = drop k l).
Proof.
  intros Hi. split.
  - rewrite insert_take_drop by done.
    rewrite take_app, length_take_le by lia.
    rewrite take_ge by (rewrite length_take; lia).
    replace (S i - i) with 1 by lia. done.
  - intros k Hk. by apply drop_insert_lt.
Qed.

Lemma length_copy_from str n dst l :
  length (copy_from str n dst l) = length l.
Proof.
  revert str dst l. induction n as [|n IH]; intros [|x str] dst l; simpl; auto.
  by rewrite IH, length_insert.
Qed.

(** Copying [n] bytes of [str] to offset [dst] overwrites exactly
    [dst .. dst + n). *)
Lemma copy_from_spec str n dst l :
  n ≤ length str → dst + n ≤ length l →
  copy_from str n dst l = take dst l ++ take n str ++ drop (dst + n) l.
Proof.
  revert str dst l. induction n as [|n IH]; intros str dst l Hs Hl.
  - simpl. rewrite Nat.add_0_r, take_drop. done.
  - destruct str as [|x str]; simpl in Hs; [lia|]. simpl.
    destruct (insert_split l dst x) as [Ht Hd]; [lia|].
    rewrite IH by (rewrite ?length_insert; simpl; lia).
    rewrite Ht, Hd by lia.
    replace (S dst + n) with (dst + S n) by lia.
    by rewrite <-app_assoc.
Qed.

Lemma copy_from_nil n dst l : copy_from [] n dst l = l.
Proof. by destruct n. Qed.

(** The forward copy of [std::copy] is correct on overlapping ranges
    when the destination does not start after the source. *)
Lemma copy_within_spec n src dst l :
  dst ≤ src → src + n ≤ length l →
  copy_within n src dst l = take dst l ++ take n (drop src l) ++ drop (dst + n) l.
Proof.
  revert src dst l. induction n as [|n IH]; intros src dst l Hle Hl.
  - simpl. rewrite Nat.add_0_r, take_drop. done.
  - simpl. destruct (lookup_lt_is_Some_2 l src) as [x Hx]; [lia|].
    rewrite Hx.
    destruct (insert_split l dst x) as [Ht Hd]; [lia|].
    rewrite IH by (rewrite ?length_insert; lia).
    rewrite Ht, !Hd by lia.
    rewrite (drop_S l x src Hx). simpl.
    rewrite <-app_assoc. simpl. by replace (dst + S n) with (S (dst + n)) by lia.
Qed.

End CopyLoops.

(** * Arithmetic of the cursors under the invariant *)

Lemma wrap_small z : 0 <= z < size_t_modulus -> wrap z = z.
Proof. intros. unfold wrap. by apply Z.mod_small. Qed.

Ltac bounds := unfold size_t_modulus, max_size, size in *; simpl in *; lia.

Lemma WritableBytes_inv b : inv b -> WritableBytes b = size b - writePos_ b.
Proof. intros H. unfold inv in H. apply wrap_small. bounds. Qed.

Lemma ReadableBytes_inv b : inv b -> ReadableBytes b = writePos_ b - readPos_ b.
Proof. intros H. unfold inv in H. apply wrap_small. bounds. Qed.

Lemma readable_inv b :
  inv b ->
  readable b = take (Z.to_nat (writePos_ b - readPos_ b))
                    (drop (Z.to_nat (readPos_ b)) (buffer_ b)).
Proof.
  intros H. unfold readable, read_bytes, Peek. by rewrite ReadableBytes_inv.
Qed.

Lemma MakeSpace_compact b len :
  inv b -> ~ (WritableBytes b + PrependableBytes b < len) ->
  MakeSpace_ b len =
    Some (mkBuffer (take (Z.to_nat (writePos_ b - readPos_ b))
                         (drop (Z.to_nat (readPos_ b)) (buffer_ b))
                    ++ drop (Z.to_nat (writePos_ b - readPos_ b)) (buffer_ b))
                   0 (writePos_ b - readPos_ b)).
Proof.
  intros Hb Hn. pose proof Hb as (Hr & Hw & Hs).
  unfold MakeSpace_.
  rewrite (wrap_small (WritableBytes b + PrependableBytes b))
    by (rewrite WritableBytes_inv by done; unfold PrependableBytes; bounds).
  destruct (Z.ltb_spec (WritableBytes b + PrependableBytes b) len); [lia|].
  rewrite copy_within_spec by (unfold size in *; lia).
  rewrite take_0, Nat.add_0_l, app_nil_l, ReadableBytes_inv by done.
  unfold ReadableBytes; simpl. rewrite Z.sub_0_r, wrap_small by bounds.
  by rewrite Z.eqb_refl.
Qed.

Lemma MakeSpace_grow b len :
  inv b -> WritableBytes b + PrependableBytes b < len ->
  writePos_ b + len + 1 < size_t_modulus ->
  MakeSpace_ b len =
    if max_size <? writePos_ b + len + 1 then None
    else Some (mkBuffer (resize (Z.to_nat (writePos_ b + len + 1)) Byte.x00
                                (buffer_ b))
                        (readPos_ b) (writePos_ b)).
Proof.
  intros Hb Hlt Hov. pose proof Hb as (Hr & Hw & Hs).
  unfold MakeSpace_.
  rewrite (wrap_small (WritableBytes b + PrependableBytes b))
    by (rewrite WritableBytes_inv by done; unfold PrependableBytes; bounds).
  destruct (Z.ltb_spec (WritableBytes b + PrependableBytes b) len); [|lia].
  rewrite (wrap_small (writePos_ b + len + 1))
    by (rewrite WritableBytes_inv in Hlt by done; unfold PrependableBytes in Hlt; bounds).
  unfold vec_resize. by destruct (max_size <? writePos_ b + len + 1).
Qed.

Lemma inv_mk l r w :
  0 <= r <= w -> w <= Z.of_nat (length l) -> Z.of_nat (length l) <= max_size ->
  inv (mkBuffer l r w).
Proof. intros. unfold inv, size; simpl. lia. Qed.

(** What [EnsureWriteable] does when it returns and [writePos_ + len + 1]
    does not overflow. *)
Lemma EnsureWriteable_ok b len b' :
  inv b -> 0 <= len -> writePos_ b + len + 1 < size_t_modulus ->
  EnsureWriteable b len = Some b' ->
  inv b' /\ len <= size b' - writePos_ b' /\
  writePos_ b' - readPos_ b' = writePos_ b - readPos_ b /\
  readable b' = readable b.
Proof.
  intros Hb Hlen Hov Hew. pose proof Hb as (Hr & Hw & Hs).
  unfold EnsureWriteable in Hew.
  destruct (Z.ltb_spec (WritableBytes b) len) as [Hlt|Hge].
  - destruct (Z.lt_dec (WritableBytes b + PrependableBytes b) len) as [Hg|Hc].
    + rewrite MakeSpace_grow in Hew by done.
      destruct (Z.ltb_spec max_size (writePos_ b + len + 1)); [done|].
      simpl in Hew.
      destruct (len <=? _); [|done]. injection Hew as <-.
      rewrite WritableBytes_inv in Hlt by done.
      assert (Hinv : inv (mkBuffer (resize (Z.to_nat (writePos_ b + len + 1))
                                       Byte.x00 (buffer_ b))
                                   (readPos_ b) (writePos_ b)))
        by (apply inv_mk; rewrite ?length_resize; bounds).
      split; [done|]. split; [unfold size; simpl; rewrite length_resize; lia|].
      split; [done|].
      rewrite !readable_inv by done. simpl.
      rewrite resize_ge by (unfold size in *; lia).
      rewrite drop_app_le by (unfold size in *; lia). rewrite take_app_le; [done|].
      rewrite length_drop. unfold size in *; lia.
    + rewrite MakeSpace_compact in Hew by done. simpl in Hew.
      destruct (len <=? _) eqn:E; [|done]. injection Hew as <-.
      apply Z.leb_le in E.
      unfold size in *. set (l := buffer_ b) in *.
      set (n := Z.to_nat (writePos_ b - readPos_ b)).
      assert (Hlen' : length (take n (drop (Z.to_nat (readPos_ b)) l) ++ drop n l)
                      = length l)
        by (rewrite length_app, length_take, !length_drop; unfold size, n in *; lia).
      assert (Hinv : inv (mkBuffer (take n (drop (Z.to_nat (readPos_ b)) l) ++ drop n l)
                                   0 (writePos_ b - readPos_ b)))
        by (apply inv_mk; rewrite ?Hlen'; unfold size, n in *; lia).
      split; [done|].
      split; [rewrite WritableBytes_inv in E by done; exact E|].
      split; [simpl; lia|].
      rewrite !readable_inv by done. simpl.
      rewrite Z.sub_0_r, drop_0. fold n.
      rewrite take_app_le by (rewrite length_take, length_drop; unfold size, n in *; lia).
      rewrite take_take. by rewrite Nat.min_id.
  - simpl in Hew. apply Z.leb_le in Hge as E. rewrite E in Hew. injection Hew as <-.
    rewrite WritableBytes_inv in Hge by done. split; [done|split; [exact Hge|done]].
Qed.

(** The readable bytes of a buffer whose storage was overwritten past
    the write cursor and whose write cursor then moved by [n]. *)
Lemma readable_after_write l r w str n :
  0 <= r <= w -> (Z.to_nat w + n <= length l)%nat -> (n <= length str)%nat ->
  take (Z.to_nat (w + Z.of_nat n - r))
       (drop (Z.to_nat r) (copy_from str n (Z.to_nat w) l)) =
  take (Z.to_nat (w - r)) (drop (Z.to_nat r) l) ++ take n str.
Proof.
  intros Hr Hl Hs. rewrite copy_from_spec by lia.
  rewrite drop_app_le by (rewrite length_take; lia).
  replace (Z.to_nat (w + Z.of_nat n - r)) with (Z.to_nat (w - r) + n)%nat by lia.
  rewrite take_app_add' by (rewrite length_drop, length_take; lia).
  rewrite take_app_le by (rewrite length_take; lia).
  rewrite take_take, Nat.min_id, take_drop_commute. do 3 f_equal. lia.
Qed.

(** [Append(str, len)] when it returns, without [size_t] overflow. *)
Lemma Append_ptr_ok b str len b' :
  inv b -> 0 <= len <= Z.of_nat (length str) ->
  writePos_ b + len + 1 < size_t_modulus ->
  Append_ptr b str len = Some b' ->
  inv b' /\ readPos_ b' <= writePos_ b' /\
  readable b' = readable b ++ take (Z.to_nat len) str.
Proof.
  intros Hb Hlen Hov Hap. unfold Append_ptr in Hap.
  destruct (EnsureWriteable b len) as [b1|] eqn:E; [|done]. simpl in Hap.
  injection Hap as <-.
  destruct (EnsureWriteable_ok b len b1) as (Hb1 & Hroom & Hrw & Hrd); [done|lia|done|done|].
  pose proof Hb1 as (Hr1 & Hw1 & Hs1). unfold size in *.
  rewrite <-Hrd.
  unfold HasWritten, BeginWrite; simpl.
  rewrite wrap_small by bounds.
  assert (Hinv : inv (mkBuffer (copy_from str (Z.to_nat len) (Z.to_nat (writePos_ b1))
                                          (buffer_ b1))
                               (readPos_ b1) (writePos_ b1 + len)))
    by (apply inv_mk; rewrite ?length_copy_from; lia).
  split; [done|]. split; [simpl; lia|].
  rewrite !readable_inv by done. simpl.
  replace (writePos_ b1 + len) with (writePos_ b1 + Z.of_nat (Z.to_nat len)) by lia.
  apply readable_after_write; lia.
Qed.

Lemma cx_buf_reachable : (b ← Buffer_new 10; Append b hello) = Some cx_buf.
Proof. reflexivity. Qed.

Lemma cx_buf_inv : inv cx_buf.
Proof. unfold inv, size; simpl. unfold max_size. lia. Qed.

(** * Claims *)

(** C1: [Retrieve(len)] with [len > ReadableBytes()] is not rejected: on
    the buffer built by [Buffer(10); Append("hello")], [Retrieve(6)]
    returns normally, moves [readPos_] to 6, past [writePos_ = 5], and
    [ReadableBytes()] wraps around to [2^64 - 1]. *)
Theorem Retrieve_past_readable_accepted :
  (b ← Buffer_new 10; Append b hello) = Some cx_buf /\
  Retrieve cx_buf (ReadableBytes cx_buf + 1) = mkBuffer (buffer_ cx_buf) 6 5 /\
  ~ inv (Retrieve cx_buf (ReadableBytes cx_buf + 1)) /\
  ReadableBytes (Retrieve cx_buf (ReadableBytes cx_buf + 1)) = size_t_modulus - 1.
Proof.
  split; [reflexivity|].
  assert (E : Retrieve cx_buf (ReadableBytes cx_buf + 1) =
              mkBuffer (buffer_ cx_buf) 6 5) by reflexivity.
  split; [done|]. rewrite E. split; [|reflexivity].
  unfold inv; simpl. lia.
Qed.

(** [MakeSpace_(len)] for a buffer satisfying the invariant and [len] with
    [WritableBytes() < len] and [writePos_ + len + 1 < 2^64], [MakeSpace_]
    either grows the storage to exactly [writePos_ + len + 1] bytes keeping
    the cursors and every existing byte (when [Writable + Prependable <
    len]; it may instead throw [length_error] beyond [max_size()]), or
    compacts: [readPos_ = 0], [writePos_ = ReadableBytes()] and the
    readable bytes now start at offset 0, unchanged. *)
Theorem MakeSpace_grow_or_compact b len :
  inv b -> WritableBytes b < len -> writePos_ b + len + 1 < size_t_modulus ->
  (WritableBytes b + PrependableBytes b < len ->
     forall b', MakeSpace_ b len = Some b' ->
       size b' = writePos_ b + len + 1 /\ size b < size b' /\
       readPos_ b' = readPos_ b /\ writePos_ b' = writePos_ b /\
       take (length (buffer_ b)) (buffer_ b') = buffer_ b) /\
  (~ (WritableBytes b + PrependableBytes b < len) ->
     exists b', MakeSpace_ b len = Some b' /\
       readPos_ b' = 0 /\ writePos_ b' = ReadableBytes b /\
       take (Z.to_nat (ReadableBytes b)) (buffer_ b') = readable b /\
       readable b' = readable b).
Proof.
  intros Hb Hlt Hov. pose proof Hb as (Hr & Hw & Hs).
  rewrite WritableBytes_inv in Hlt by done.
  split.
  - intros Hg b' Hm. rewrite MakeSpace_grow in Hm by done.
    destruct (max_size <? _); [done|]. injection Hm as <-.
    unfold size in *; simpl. rewrite length_resize.
    rewrite take_resize, Nat.min_l by lia. rewrite resize_all.
    repeat split; lia.
  - intros Hc. rewrite MakeSpace_compact by done.
    eexists; split; [reflexivity|]. simpl.
    rewrite ReadableBytes_inv by done.
    assert (Ht : take (Z.to_nat (writePos_ b - readPos_ b))
                   (take (Z.to_nat (writePos_ b - readPos_ b))
                      (drop (Z.to_nat (readPos_ b)) (buffer_ b)) ++
                    drop (Z.to_nat (writePos_ b - readPos_ b)) (buffer_ b)) =
                 readable b).
    { rewrite take_app_le by (rewrite length_take, length_drop; unfold size in *; lia).
      rewrite take_take, Nat.min_id. by rewrite readable_inv. }
    repeat split; [done|].
    unfold readable at 1, read_bytes, Peek, ReadableBytes; simpl.
    rewrite Z.sub_0_r, wrap_small by bounds. by rewrite drop_0.
Qed.

(** C3: [MakeSpace_] computes [writePos_ + len + 1] in [size_t], so its
    growth branch does not grow the storage for every [len].  On the
    reachable [cx_buf] ([Buffer(10)] after [Append("hello")]) with
    [len = 2^64 - 3], which [EnsureWriteable] passes on because
    [len > WritableBytes()], the sum wraps to 3 and the 10-byte vector is
    resized down to 3 bytes, below [writePos_ = 5]. *)
Theorem MakeSpace_overflow_shrinks :
  inv cx_buf /\ WritableBytes cx_buf < huge_len /\
  WritableBytes cx_buf + PrependableBytes cx_buf < huge_len /\
  MakeSpace_ cx_buf huge_len = Some cx_overflowed /\
  size cx_overflowed = 3 /\ size cx_overflowed < size cx_buf /\
  size cx_overflowed < writePos_ cx_buf + huge_len + 1 /\
  readPos_ cx_overflowed = readPos_ cx_buf /\
  writePos_ cx_overflowed = writePos_ cx_buf /\
  size cx_overflowed < writePos_ cx_overflowed.
Proof.
  split; [exact cx_buf_inv|].
  split; [reflexivity|]. split; [reflexivity|].
  split; [vm_compute; reflexivity|].
  repeat split; reflexivity.
Qed.

Lemma EnsureWriteable_noop b len :
  len <= WritableBytes b -> EnsureWriteable b len = Some b.
Proof.
  intros H. unfold EnsureWriteable.
  destruct (Z.ltb_spec (WritableBytes b) len); [lia|]. simpl.
  by rewrite (proj2 (Z.leb_le _ _) H).
Qed.

Lemma EnsureWriteable_cx_overflow :
  EnsureWriteable cx_buf huge_len = Some cx_overflowed.
Proof. vm_compute. reflexivity. Qed.

(** C4: the layout invariant [readPos_ <= writePos_ <= size] is broken by
    [EnsureWriteable(2^64 - 3)] on the reachable [cx_buf]: [MakeSpace_]
    computes [writePos_ + len + 1] in [size_t], which wraps to 3, the
    vector is resized down to 3 bytes while [writePos_] stays 5, and the
    final [assert(len <= WritableBytes())] passes because
    [WritableBytes()] wraps to [2^64 - 2]. *)
Theorem EnsureWriteable_overflow_breaks_inv :
  inv cx_buf /\
  EnsureWriteable cx_buf huge_len = Some cx_overflowed /\
  size cx_overflowed < writePos_ cx_overflowed /\
  ~ inv cx_overflowed.
Proof.
  split; [exact cx_buf_inv|]. split; [exact EnsureWriteable_cx_overflow|].
  split; [reflexivity|].
  unfold inv, size; simpl. lia.
Qed.

(** C5: on the same input [EnsureWriteable] returns with
    [WritableBytes() >= len] (in wrapped [size_t] arithmetic) and the same
    [ReadableBytes()], but the readable bytes are no longer those of the
    buffer: "hello" became "hel". *)
Theorem EnsureWriteable_overflow_loses_readable :
  EnsureWriteable cx_buf huge_len = Some cx_overflowed /\
  huge_len <= WritableBytes cx_overflowed /\
  ReadableBytes cx_overflowed = ReadableBytes cx_buf /\
  readable cx_buf = hello /\
  readable cx_overflowed = take 3 hello /\
  readable cx_overflowed <> readable cx_buf.
Proof.
  split; [exact EnsureWriteable_cx_overflow|].
  split; [vm_compute; discriminate|].
  split; [reflexivity|]. split; [reflexivity|]. split; [reflexivity|].
  vm_compute. discriminate.
Qed.

(** C6: when [readv] or [write] fails, [ReadFd] and [WriteFd] store
    [errno] through [Errno], return [-1] and leave the buffer unchanged. *)
Theorem Fd_error_leaves_buffer b e :
  ReadFd b (SysErr e) = Some (-1, Some e, b) /\
  WriteFd b (SysErr e) = (-1, Some e, b).
Proof. split; reflexivity. Qed.

(** C10: a [readv] returning 0 (end of stream) makes [ReadFd] return 0,
    with the buffer unchanged and nothing stored through [Errno]. *)
Theorem ReadFd_eof b :
  inv b -> ReadFd b (SysOk []) = Some (0, None, b).
Proof.
  intros Hb. pose proof Hb as (Hr & Hw & Hs).
  unfold ReadFd; simpl. rewrite copy_from_nil. change (Z.of_nat 0) with 0.
  destruct (Z.leb_spec 0 (WritableBytes b)) as [_|Hn].
  - rewrite Z.add_0_r, wrap_small by bounds. by destruct b.
  - unfold WritableBytes, wrap in Hn.
    pose proof (Z.mod_pos_bound (size b - writePos_ b) size_t_modulus) as Hm.
    unfold size_t_modulus in *. lia.
Qed.

(** * Descriptor transfers and appends that succeed *)

Lemma copy_from_min str n dst l :
  copy_from str n dst l = copy_from str (Nat.min n (length str)) dst l.
Proof.
  revert str dst l. induction n as [|n IH]; intros [|x str] dst l; simpl; auto.
Qed.

Lemma drop_take_le (l : list byte) k m :
  (k <= m)%nat -> drop k (take m l) = take (m - k) (drop k l).
Proof. intros H. rewrite take_drop_commute. do 2 f_equal. lia. Qed.

(** One successful [write]: [readPos_] advances by the count, the bytes
    written are the front of the readable region. *)
Lemma WriteFd_ok b data :
  inv b -> write_fits b data ->
  let k := Z.of_nat (length data) in
  let b1 := mkBuffer (buffer_ b) (readPos_ b + k) (writePos_ b) in
  WriteFd b (SysOk data) = (k, None, b1) /\
  k <= ReadableBytes b /\ inv b1 /\
  ReadableBytes b1 = ReadableBytes b - k /\
  readable b = data ++ readable b1.
Proof.
  intros Hb [rest Hrest] k b1. pose proof Hb as (Hr & Hw & Hs).
  assert (Hlen : length (readable b) = Z.to_nat (writePos_ b - readPos_ b)).
  { rewrite readable_inv, length_take, length_drop by done. unfold size in *; lia. }
  assert (Hk : k <= writePos_ b - readPos_ b).
  { unfold k. rewrite Hrest, length_app in Hlen. lia. }
  assert (Hinv : inv b1) by (unfold inv, b1, size in *; simpl; lia).
  split; [unfold WriteFd, Retrieve; simpl; rewrite wrap_small by bounds; done|].
  rewrite ReadableBytes_inv by done.
  split; [done|]. split; [done|].
  rewrite ReadableBytes_inv by done. split; [simpl; lia|].
  rewrite Hrest. f_equal.
  apply (f_equal (drop (length data))) in Hrest.
  rewrite drop_app_length in Hrest. rewrite <-Hrest.
  rewrite !readable_inv by done. simpl.
  rewrite drop_take_le by lia. rewrite drop_drop.
  f_equal; [lia|]. f_equal. lia.
Qed.

(** C7: a successful [WriteFd] that writes [k] bytes (a prefix of the
    readable region, so [0 <= k <= ReadableBytes()]) only advances
    [readPos_] by [k]; the other [ReadableBytes() - k] bytes stay readable,
    and a second call that writes all of them drains the buffer. *)
Theorem WriteFd_partial b data n e b1 :
  inv b -> write_fits b data -> WriteFd b (SysOk data) = (n, e, b1) ->
  n = Z.of_nat (length data) /\ 0 <= n <= ReadableBytes b /\ e = None /\
  b1 = mkBuffer (buffer_ b) (readPos_ b + n) (writePos_ b) /\
  ReadableBytes b1 = ReadableBytes b - n /\
  readable b = data ++ readable b1 /\
  (forall n2 e2 b2, WriteFd b1 (SysOk (readable b1)) = (n2, e2, b2) ->
     n2 = ReadableBytes b1 /\ ReadableBytes b2 = 0 /\ readable b2 = []).
Proof.
  intros Hb Hfit Hw.
  destruct (WriteFd_ok b data Hb Hfit) as (E & Hk & Hinv1 & Hrb & Hrd).
  rewrite E in Hw. injection Hw as <- <- Eb.
  rewrite Eb in Hinv1, Hrb, Hrd.
  split; [done|]. split; [lia|]. split; [done|]. split; [done|].
  split; [done|]. split; [done|].
  intros n2 e2 b2 Hw2.
  destruct (WriteFd_ok _ (readable b1) Hinv1 ltac:(unfold write_fits; reflexivity)) as (E2 & Hk2 & Hinv2 & Hrb2 & Hrd2).
  rewrite E2 in Hw2. injection Hw2 as <- <- <-.
  assert (Hl : Z.of_nat (length (readable b1)) = ReadableBytes b1).
  { rewrite readable_inv, length_take, length_drop, ReadableBytes_inv by done.
    destruct Hinv1 as (? & ? & ?). unfold size in *. lia. }
  split; [done|]. split; [lia|].
  apply (f_equal length) in Hrd2. rewrite length_app in Hrd2.
  apply List.length_zero_iff_nil. lia.
Qed.

(** C8: appending a byte sequence [B] (a C++ object, so at most
    [max_size()] bytes) and reading [ReadableBytes()] bytes from [Peek()]
    gives the earlier readable bytes followed by exactly [B]. *)
Theorem Append_roundtrip b B b' :
  inv b -> Z.of_nat (length B) <= max_size -> Append b B = Some b' ->
  read_bytes b' (Peek b') (ReadableBytes b') = readable b ++ B.
Proof.
  intros Hb HB Ha. pose proof Hb as (Hr & Hw & Hs).
  destruct (Append_ptr_ok b B (Z.of_nat (length B)) b') as (_ & _ & Hrd);
    [done|lia|bounds|done|].
  fold (readable b'). rewrite Hrd, Nat2Z.id, take_ge; done.
Qed.

Lemma ReadFd_ok b data n e b' :
  inv b -> readv_fits b data -> ReadFd b (SysOk data) = Some (n, e, b') ->
  n = Z.of_nat (length data) /\ e = None /\
  (n <= WritableBytes b ->
     b' = mkBuffer (take (Z.to_nat (writePos_ b)) (buffer_ b) ++ data ++
                    drop (Z.to_nat (writePos_ b) + length data) (buffer_ b))
                   (readPos_ b) (writePos_ b + n)) /\
  (WritableBytes b < n ->
     Append_ptr (mkBuffer (take (Z.to_nat (writePos_ b)) (buffer_ b) ++
                           take (Z.to_nat (WritableBytes b)) data)
                          (readPos_ b) (size b))
                (drop (Z.to_nat (WritableBytes b)) data) (n - WritableBytes b)
     = Some b') /\
  readable b' = readable b ++ data.
Proof.
  intros Hb Hfit Hr. pose proof Hb as (Hr0 & Hw0 & Hs0).
  unfold readv_fits, ReadFd_iov, scratch_size in Hfit; simpl in Hfit.
  unfold ReadFd in Hr. rewrite WritableBytes_inv in Hr, Hfit |- * by done.
  unfold size in *. unfold BeginWrite in Hr.
  set (l := buffer_ b) in *. set (w := writePos_ b) in *. set (r := readPos_ b) in *.
  set (len := length data) in *.
  destruct (Z.leb_spec (Z.of_nat len) (Z.of_nat (length l) - w)) as [Hle|Hgt].
  - injection Hr as <- <- <-.
    rewrite copy_from_min, Nat.min_r in * by lia.
    rewrite wrap_small by bounds.
    split; [done|]. split; [done|].
    split; [intros _; rewrite copy_from_spec, (take_ge data) by lia; done|].
    split; [lia|].
    rewrite readable_inv by (apply inv_mk; rewrite ?length_copy_from; lia).
    rewrite readable_inv by done. simpl.
    rewrite readable_after_write by lia. by rewrite (take_ge data).
  - set (W := Z.of_nat (length l) - w) in *.
    destruct (Append_ptr _ _ _) as [b1|] eqn:Ea; [|done].
    simpl in Hr. injection Hr as <- <- <-.
    assert (Hc : copy_from data (Z.to_nat W) (Z.to_nat w) l =
                 take (Z.to_nat w) l ++ take (Z.to_nat W) data).
    { rewrite copy_from_spec by lia. rewrite drop_ge by lia. by rewrite app_nil_r. }
    split; [done|]. split; [done|]. split; [lia|].
    split; [intros _; rewrite <-Hc; done|].
    assert (Hinv : inv (mkBuffer (copy_from data (Z.to_nat W) (Z.to_nat w) l) r
                                 (Z.of_nat (length l))))
      by (apply inv_mk; rewrite ?length_copy_from; unfold W in *; lia).
    destruct (Append_ptr_ok _ (drop (Z.to_nat W) data) (Z.of_nat len - W) b1 Hinv)
      as (_ & _ & Hrd);
      [rewrite length_drop; lia|simpl; unfold size_t_modulus, max_size in *; lia|done|].
    rewrite Hrd.
    rewrite take_ge by (rewrite length_drop; lia).
    rewrite readable_inv by done. simpl.
    replace (Z.of_nat (length l)) with (w + Z.of_nat (Z.to_nat W)) at 1 by lia.
    rewrite readable_after_write by lia.
    rewrite readable_inv by done.
    rewrite <-app_assoc. by rewrite take_drop.
Qed.

(** C2: a successful [ReadFd] returning [n = length data] bytes.  When
    [n <= WritableBytes()] the bytes land in the writable region and only
    [writePos_] moves, by [n]; otherwise the writable region is filled
    with the first [WritableBytes()] bytes, [writePos_] jumps to [size()],
    and the [n - WritableBytes()] bytes of [buff] go through [Append].
    Either way the readable region becomes the old one followed by all
    [n] bytes, in order. *)
Theorem ReadFd_success b data n e b' :
  inv b -> readv_fits b data -> ReadFd b (SysOk data) = Some (n, e, b') ->
  n = Z.of_nat (length data) /\ e = None /\
  (n <= WritableBytes b ->
     b' = mkBuffer (take (Z.to_nat (writePos_ b)) (buffer_ b) ++ data ++
                    drop (Z.to_nat (writePos_ b) + length data) (buffer_ b))
                   (readPos_ b) (writePos_ b + n)) /\
  (WritableBytes b < n ->
     Append_ptr (mkBuffer (take (Z.to_nat (writePos_ b)) (buffer_ b) ++
                           take (Z.to_nat (WritableBytes b)) data)
                          (readPos_ b) (size b))
                (drop (Z.to_nat (WritableBytes b)) data) (n - WritableBytes b)
     = Some b') /\
  readable b' = readable b ++ data.
Proof. exact (ReadFd_ok b data n e b'). Qed.

(** * Witnesses: the theorems' hypotheses hold on concrete buffers *)

Lemma ReadFd_success_witness :
  inv cx_buf /\ readv_fits cx_buf rd_data /\
  ReadFd cx_buf (SysOk rd_data) = Some (8, None, rd_result) /\
  WritableBytes cx_buf < 8 /\
  readable rd_result = readable cx_buf ++ rd_data.
Proof.
  assert (H1 : inv cx_buf) by (unfold inv, size, max_size; simpl; lia).
  assert (H2 : readv_fits cx_buf rd_data) by (vm_compute; discriminate).
  assert (H3 : ReadFd cx_buf (SysOk rd_data) = Some (8, None, rd_result))
    by (vm_compute; reflexivity).
  split; [exact H1|]. split; [exact H2|]. split; [exact H3|].
  split; [reflexivity|].
  exact (proj2 (proj2 (proj2 (proj2
           (ReadFd_success cx_buf rd_data 8 None rd_result H1 H2 H3))))).
Defined.

Lemma MakeSpace_grow_or_compact_witness :
  inv cx_drained2 /\ WritableBytes cx_drained2 < 7 /\
  writePos_ cx_drained2 + 7 + 1 < size_t_modulus /\
  exists b', MakeSpace_ cx_drained2 7 = Some b' /\ readPos_ b' = 0 /\
    writePos_ b' = ReadableBytes cx_drained2 /\ readable b' = readable cx_drained2.
Proof.
  assert (H1 : inv cx_drained2) by (unfold inv, size, max_size; simpl; lia).
  assert (H2 : WritableBytes cx_drained2 < 7) by reflexivity.
  assert (H3 : writePos_ cx_drained2 + 7 + 1 < size_t_modulus) by reflexivity.
  split; [exact H1|]. split; [exact H2|]. split; [exact H3|].
  destruct (proj2 (MakeSpace_grow_or_compact cx_drained2 7 H1 H2 H3)
                  ltac:(vm_compute; discriminate))
    as (b' & Hm & Hr & Hw & _ & Hrd).
  exists b'. repeat split; assumption.
Defined.

Lemma WriteFd_partial_witness :
  inv cx_buf /\ write_fits cx_buf [Byte.x68; Byte.x65] /\
  WriteFd cx_buf (SysOk [Byte.x68; Byte.x65]) = (2, None, cx_drained2) /\
  ReadableBytes cx_drained2 = ReadableBytes cx_buf - 2.
Proof.
  assert (H1 : inv cx_buf) by (unfold inv, size, max_size; simpl; lia).
  assert (H2 : write_fits cx_buf [Byte.x68; Byte.x65])
    by (exists [Byte.x6c; Byte.x6c; Byte.x6f]; reflexivity).
  assert (H3 : WriteFd cx_buf (SysOk [Byte.x68; Byte.x65]) = (2, None, cx_drained2))
    by reflexivity.
  split; [exact H1|]. split; [exact H2|]. split; [exact H3|].
  destruct (WriteFd_partial cx_buf _ 2 None cx_drained2 H1 H2 H3)
    as (_ & _ & _ & _ & Hrb & _).
  exact Hrb.
Defined.

Lemma Append_roundtrip_witness :
  inv cx_buf /\ Z.of_nat (length hello) <= max_size /\
  Append cx_buf hello = Some (mkBuffer (hello ++ hello) 0 10) /\
  read_bytes (mkBuffer (hello ++ hello) 0 10) 0 10 = readable cx_buf ++ hello.
Proof.
  assert (H1 : inv cx_buf) by (unfold inv, size, max_size; simpl; lia).
  assert (H2 : Z.of_nat (length hello) <= max_size) by (unfold max_size; simpl; lia).
  assert (H3 : Append cx_buf hello = Some (mkBuffer (hello ++ hello) 0 10))
    by reflexivity.
  split; [exact H1|]. split; [exact H2|]. split; [exact H3|].
  exact (Append_roundtrip cx_buf hello _ H1 H2 H3).
Defined.

Lemma ReadFd_eof_witness :
  inv cx_buf /\ ReadFd cx_buf (SysOk []) = Some (0, None, cx_buf).
Proof.
  assert (H1 : inv cx_buf) by (unfold inv, size, max_size; simpl; lia).
  split; [exact H1|]. exact (ReadFd_eof cx_buf H1).
Defined.

(** * Further properties of the [Buffer] operations *)

Lemma length_readable b :
  inv b -> Z.of_nat (length (readable b)) = ReadableBytes b.
Proof.
  intros Hb. pose proof Hb as (? & ? & ?).
  rewrite readable_inv, length_take, length_drop, ReadableBytes_inv by done.
  unfold size in *. lia.
Qed.

(** Constructor: [Buffer(n)] for [0 <= n <= max_size()] is an empty buffer
    whose whole storage of [n] bytes is writable; a negative [int] makes
    the vector constructor throw. *)
Theorem Buffer_new_empty n :
  (n < 0 -> Buffer_new n = None) /\
  (0 <= n <= max_size ->
   exists b, Buffer_new n = Some b /\ inv b /\ size b = n /\
     WritableBytes b = n /\ ReadableBytes b = 0 /\ PrependableBytes b = 0 /\
     readable b = []).
Proof.
  split.
  - intros H. unfold Buffer_new. destruct (Z.ltb_spec n 0); [done|lia].
  - intros H. unfold Buffer_new.
    destruct (Z.ltb_spec n 0); [lia|]. destruct (Z.ltb_spec max_size n); [lia|].
    eexists; split; [reflexivity|].
    assert (Hs : size (mkBuffer (replicate (Z.to_nat n) Byte.x00) 0 0) = n)
      by (unfold size; simpl; rewrite length_replicate; lia).
    assert (Hi : inv (mkBuffer (replicate (Z.to_nat n) Byte.x00) 0 0))
      by (unfold inv; rewrite Hs; simpl; lia).
    split; [done|]. split; [done|].
    rewrite WritableBytes_inv, ReadableBytes_inv by done. rewrite Hs.
    simpl. repeat split; lia.
Qed.

Lemma Retrieve_ok b len :
  inv b -> 0 <= len <= ReadableBytes b ->
  inv (Retrieve b len) /\ readPos_ (Retrieve b len) = readPos_ b + len /\
  ReadableBytes (Retrieve b len) = ReadableBytes b - len /\
  readable (Retrieve b len) = drop (Z.to_nat len) (readable b).
Proof.
  intros Hb Hl. pose proof Hb as (Hr & Hw & Hs).
  rewrite ReadableBytes_inv in Hl by done.
  assert (E : Retrieve b len = mkBuffer (buffer_ b) (readPos_ b + len) (writePos_ b))
    by (unfold Retrieve; rewrite wrap_small by bounds; done).
  rewrite E.
  assert (Hi : inv (mkBuffer (buffer_ b) (readPos_ b + len) (writePos_ b)))
    by (unfold inv, size in *; simpl; lia).
  split; [done|]. split; [done|].
  rewrite !ReadableBytes_inv by done. split; [simpl; lia|].
  rewrite !readable_inv by done. simpl.
  rewrite drop_take_le by lia. rewrite drop_drop.
  f_equal; [lia|]. f_equal. lia.
Qed.

(** [Retrieve(len)] within its precondition [len <= ReadableBytes()] keeps
    the invariant and drops exactly the first [len] readable bytes. *)
Theorem Retrieve_within b len :
  inv b -> 0 <= len <= ReadableBytes b ->
  inv (Retrieve b len) /\ readPos_ (Retrieve b len) = readPos_ b + len /\
  ReadableBytes (Retrieve b len) = ReadableBytes b - len /\
  readable (Retrieve b len) = drop (Z.to_nat len) (readable b).
Proof. exact (Retrieve_ok b len). Qed.

(** [RetrieveUntil(end)] for [Peek() <= end <= BeginWrite()] moves the
    read cursor to [end], dropping the bytes before it; an [end] before
    [Peek()] fails the assertion. *)
Theorem RetrieveUntil_spec b e :
  inv b ->
  (e < Peek b -> RetrieveUntil b e = None) /\
  (Peek b <= e <= BeginWrite b ->
   exists b', RetrieveUntil b e = Some b' /\ inv b' /\ readPos_ b' = e /\
     writePos_ b' = writePos_ b /\
     readable b' = drop (Z.to_nat (e - Peek b)) (readable b)).
Proof.
  intros Hb. pose proof Hb as (Hr & Hw & Hs). unfold Peek, BeginWrite.
  split.
  - intros H. unfold RetrieveUntil, Peek. destruct (Z.leb_spec (readPos_ b) e); [lia|done].
  - intros H. unfold RetrieveUntil, Peek.
    destruct (Z.leb_spec (readPos_ b) e); [|lia].
    rewrite (wrap_small (e - readPos_ b)) by bounds.
    destruct (Retrieve_ok b (e - readPos_ b)) as (Hi & Hrp & _ & Hrd);
      [done|rewrite ReadableBytes_inv by done; lia|].
    eexists; split; [reflexivity|]. split; [done|].
    split; [rewrite Hrp; lia|]. split; [done|]. done.
Qed.

(** [RetrieveAll()] zeroes the whole storage, keeps its size and resets
    both cursors, so everything is writable and nothing readable. *)
Theorem RetrieveAll_spec b :
  inv b ->
  let b' := RetrieveAll b in
  buffer_ b' = replicate (length (buffer_ b)) Byte.x00 /\ size b' = size b /\
  readPos_ b' = 0 /\ writePos_ b' = 0 /\ inv b' /\
  WritableBytes b' = size b /\ readable b' = [].
Proof.
  intros Hb b'. pose proof Hb as (Hr & Hw & Hs).
  assert (Hsz : size b' = size b) by (unfold b', size; simpl; rewrite length_replicate; lia).
  assert (Hi : inv b') by (unfold inv; rewrite Hsz; simpl; lia).
  split; [done|]. split; [done|]. split; [done|]. split; [done|].
  split; [done|]. rewrite WritableBytes_inv, Hsz by done. split; [simpl; lia|].
  unfold readable, read_bytes, ReadableBytes. simpl. by rewrite take_0.
Qed.

(** [EnsureWriteable] without allocation: the request fits in the
    writable plus the prependable space. *)
Lemma EnsureWriteable_fits b len :
  inv b -> 0 <= len <= WritableBytes b + PrependableBytes b ->
  exists b1, EnsureWriteable b len = Some b1 /\ size b1 = size b.
Proof.
  intros Hb Hl. pose proof Hb as (Hr & Hw & Hs).
  unfold EnsureWriteable.
  destruct (Z.ltb_spec (WritableBytes b) len) as [Hlt|Hge].
  - rewrite MakeSpace_compact by (done || lia). simpl.
    set (l := buffer_ b) in *. set (n := Z.to_nat (writePos_ b - readPos_ b)).
    assert (Hlen : length (take n (drop (Z.to_nat (readPos_ b)) l) ++ drop n l)
                   = length l)
      by (rewrite length_app, length_take, !length_drop; unfold size, n, l in *; lia).
    unfold WritableBytes, size at 1; simpl. rewrite Hlen.
    rewrite WritableBytes_inv in Hl by done. unfold PrependableBytes in Hl.
    rewrite wrap_small by (unfold l; bounds).
    destruct (Z.leb_spec len (Z.of_nat (length l) - (writePos_ b - readPos_ b)));
      [|unfold size, l in *; lia].
    eexists; split; [reflexivity|]. unfold size; simpl. by rewrite Hlen.
  - simpl. destruct (Z.leb_spec len (WritableBytes b)); [|lia]. eauto.
Qed.

(** [EnsureWriteable] that must allocate resizes to [writePos_ + len + 1]. *)
Lemma EnsureWriteable_grows b len :
  inv b -> WritableBytes b + PrependableBytes b < len ->
  writePos_ b + len + 1 <= max_size ->
  EnsureWriteable b len =
    Some (mkBuffer (resize (Z.to_nat (writePos_ b + len + 1)) Byte.x00 (buffer_ b))
                   (readPos_ b) (writePos_ b)).
Proof.
  intros Hb Hg Hm. pose proof Hb as (Hr & Hw & Hs).
  unfold EnsureWriteable. unfold PrependableBytes in Hg.
  assert (HW : WritableBytes b = size b - writePos_ b) by (apply WritableBytes_inv; done).
  destruct (Z.ltb_spec (WritableBytes b) len); [|lia].
  rewrite MakeSpace_grow by (first [done | unfold PrependableBytes; lia | bounds]).
  destruct (Z.ltb_spec max_size (writePos_ b + len + 1)); [lia|]. simpl.
  unfold WritableBytes, size at 1; simpl. rewrite length_resize.
  rewrite wrap_small by bounds.
  destruct (Z.leb_spec len (Z.of_nat (Z.to_nat (writePos_ b + len + 1)) - writePos_ b));
    [done|lia].
Qed.

(** [EnsureWriteable] that must allocate beyond [max_size()] throws. *)
Lemma EnsureWriteable_throws b len :
  inv b -> WritableBytes b + PrependableBytes b < len ->
  max_size < writePos_ b + len + 1 -> writePos_ b + len + 1 < size_t_modulus ->
  EnsureWriteable b len = None.
Proof.
  intros Hb Hg Hm Hov.
  unfold EnsureWriteable. unfold PrependableBytes in Hg.
  rewrite WritableBytes_inv in Hg |- * by done. pose proof Hb as (Hr & Hw & Hs).
  destruct (Z.ltb_spec (size b - writePos_ b) len); [|lia].
  rewrite MakeSpace_grow by (rewrite ?WritableBytes_inv; unfold PrependableBytes; done || lia).
  destruct (Z.ltb_spec max_size (writePos_ b + len + 1)); [done|lia].
Qed.

Lemma Append_from_ensure b B b1 :
  EnsureWriteable b (Z.of_nat (length B)) = Some b1 ->
  Append b B = Some (HasWritten (mkBuffer (copy_from B (length B)
                        (Z.to_nat (writePos_ b1)) (buffer_ b1))
                        (readPos_ b1) (writePos_ b1)) (Z.of_nat (length B))).
Proof.
  intros E. unfold Append, Append_ptr. rewrite E. simpl. by rewrite Nat2Z.id.
Qed.

(** [Append] of data that fits in the writable plus prependable space
    never allocates: it returns, the storage keeps its size, and the data
    follows the old readable bytes. *)
Theorem Append_no_alloc b B :
  inv b -> Z.of_nat (length B) <= WritableBytes b + PrependableBytes b ->
  exists b', Append b B = Some b' /\ size b' = size b /\ inv b' /\
    readable b' = readable b ++ B.
Proof.
  intros Hb Hl. pose proof Hb as (Hr & Hw & Hs).
  destruct (EnsureWriteable_fits b (Z.of_nat (length B))) as (b1 & E & Hsz); [done|lia|].
  pose proof (Append_from_ensure b B b1 E) as Ea.
  eexists; split; [exact Ea|].
  assert (H1 : 0 <= Z.of_nat (length B) <= Z.of_nat (length B)) by lia.
  assert (H2 : writePos_ b + Z.of_nat (length B) + 1 < size_t_modulus)
    by (rewrite WritableBytes_inv in Hl by done; unfold PrependableBytes in Hl; bounds).
  destruct (Append_ptr_ok b B (Z.of_nat (length B)) _ Hb H1 H2 Ea) as (Hi & _ & Hrd).
  split; [unfold size in *; simpl; rewrite length_copy_from; done|].
  split; [done|]. rewrite Hrd, Nat2Z.id, take_ge; done.
Qed.

(** [Append] of data that does not fit even after compaction grows the
    storage to exactly [writePos_ + len + 1] bytes. *)
Theorem Append_grows b B :
  inv b -> WritableBytes b + PrependableBytes b < Z.of_nat (length B) ->
  writePos_ b + Z.of_nat (length B) + 1 <= max_size ->
  exists b', Append b B = Some b' /\
    size b' = writePos_ b + Z.of_nat (length B) + 1 /\ inv b' /\
    readable b' = readable b ++ B.
Proof.
  intros Hb Hg Hm. pose proof Hb as (Hr & Hw & Hs).
  pose proof (EnsureWriteable_grows b _ Hb Hg Hm) as E.
  pose proof (Append_from_ensure b B _ E) as Ea.
  eexists; split; [exact Ea|].
  assert (H1 : 0 <= Z.of_nat (length B) <= Z.of_nat (length B)) by lia.
  assert (H2 : writePos_ b + Z.of_nat (length B) + 1 < size_t_modulus)
    by (unfold size_t_modulus, max_size in *; lia).
  destruct (Append_ptr_ok b B (Z.of_nat (length B)) _ Hb H1 H2 Ea) as (Hi & _ & Hrd).
  split; [unfold size; simpl; rewrite length_copy_from, length_resize; lia|].
  split; [done|]. rewrite Hrd, Nat2Z.id, take_ge; done.
Qed.

(** Appending nothing leaves the buffer exactly as it was. *)
Theorem Append_nil b : inv b -> Append b [] = Some b.
Proof.
  intros Hb. pose proof Hb as (Hr & Hw & Hs).
  unfold Append, Append_ptr. simpl.
  rewrite EnsureWriteable_noop by (unfold WritableBytes, wrap;
    apply Z.mod_pos_bound; unfold size_t_modulus; lia).
  simpl. unfold HasWritten; simpl. rewrite Z.add_0_r, wrap_small by bounds.
  by destruct b.
Qed.

(** [HasWritten(len)] within its precondition [len <= WritableBytes()]
    keeps the invariant and makes the next [len] bytes of storage
    readable, after the old readable bytes. *)
Theorem HasWritten_within b len :
  inv b -> 0 <= len <= WritableBytes b ->
  inv (HasWritten b len) /\ writePos_ (HasWritten b len) = writePos_ b + len /\
  readable (HasWritten b len) =
    readable b ++ take (Z.to_nat len) (drop (Z.to_nat (writePos_ b)) (buffer_ b)).
Proof.
  intros Hb Hl. pose proof Hb as (Hr & Hw & Hs).
  rewrite WritableBytes_inv in Hl by done.
  assert (E : HasWritten b len = mkBuffer (buffer_ b) (readPos_ b) (writePos_ b + len))
    by (unfold HasWritten; rewrite wrap_small by bounds; done).
  rewrite E.
  assert (Hi : inv (mkBuffer (buffer_ b) (readPos_ b) (writePos_ b + len)))
    by (unfold inv, size in *; simpl; lia).
  split; [done|]. split; [done|].
  rewrite !readable_inv by done. simpl.
  replace (drop (Z.to_nat (writePos_ b)) (buffer_ b)) with
    (drop (Z.to_nat (writePos_ b - readPos_ b)) (drop (Z.to_nat (readPos_ b)) (buffer_ b)))
    by (rewrite drop_drop; f_equal; lia).
  rewrite take_take_drop. f_equal. lia.
Qed.

(** [Append(const Buffer &other)] with [other] another object than
    [*this] copies the readable bytes of [other] after the readable bytes
    of this buffer. *)
Theorem Append_buf_spec b other b' :
  inv b -> inv other -> Append_buf b other = Some b' ->
  inv b' /\ readable b' = readable b ++ readable other.
Proof.
  intros Hb Ho Ha. pose proof Hb as (Hr & Hw & Hs). pose proof Ho as (Hr' & Hw' & Hs').
  unfold Append_buf in Ha. rewrite ReadableBytes_inv in Ha by done.
  destruct (Append_ptr_ok b (drop (Z.to_nat (Peek other)) (buffer_ other))
              (writePos_ other - readPos_ other) b' Hb) as (Hi & _ & Hrd);
    [unfold Peek; rewrite length_drop; unfold size in *; lia
    |unfold size_t_modulus, max_size in *; lia|done|].
  split; [done|]. rewrite Hrd. f_equal. by rewrite readable_inv.
Qed.

Lemma Buffer_new_some n b :
  Buffer_new n = Some b -> inv b /\ readable b = [].
Proof.
  unfold Buffer_new. destruct (Z.ltb_spec n 0); [done|].
  destruct (Z.ltb_spec max_size n); [done|]. intros [= <-].
  split; [unfold inv, size; simpl; rewrite length_replicate; lia|].
  unfold readable, read_bytes, ReadableBytes; simpl. by rewrite take_0.
Qed.

(** A fresh [Buffer(n)], then [Append(B)], then [RetrieveAllToStr()]
    gives back exactly [B] and leaves nothing readable. *)
Theorem RetrieveAllToStr_after_Append n B b b' :
  Buffer_new n = Some b -> Z.of_nat (length B) <= max_size -> Append b B = Some b' ->
  fst (RetrieveAllToStr b') = B /\ readable (snd (RetrieveAllToStr b')) = [] /\
  size (snd (RetrieveAllToStr b')) = size b'.
Proof.
  intros Hn HB Ha. destruct (Buffer_new_some n b Hn) as [Hb Hrd0].
  pose proof Hb as (Hr & Hw & Hs).
  destruct (Append_ptr_ok b B (Z.of_nat (length B)) b' Hb) as (Hi & _ & Hrd);
    [lia|unfold size_t_modulus, max_size in *; lia|done|].
  split; [|split].
  - simpl. fold (readable b'). rewrite Hrd, Hrd0, Nat2Z.id, take_ge; done.
  - unfold readable, read_bytes, ReadableBytes; simpl. by rewrite take_0.
  - unfold size; simpl. by rewrite length_replicate.
Qed.

(** [EnsureWriteable(len)] when [writePos_ + len + 1] does not overflow:
    when it returns, [len] bytes are writable and the readable bytes are
    unchanged (they may have moved to offset 0). *)
Theorem EnsureWriteable_in_range b len b' :
  inv b -> 0 <= len -> writePos_ b + len + 1 < size_t_modulus ->
  EnsureWriteable b len = Some b' ->
  inv b' /\ len <= WritableBytes b' /\ ReadableBytes b' = ReadableBytes b /\
  readable b' = readable b.
Proof.
  intros Hb Hl Hov He.
  destruct (EnsureWriteable_ok b len b' Hb Hl Hov He) as (Hi & Hw & Hrw & Hrd).
  rewrite WritableBytes_inv, !ReadableBytes_inv by done. auto.
Qed.

(** A successful [ReadFd] keeps the invariant; a read that fits in the
    writable region does not change the storage size. *)
Theorem ReadFd_keeps_inv b data n e b' :
  inv b -> readv_fits b data -> ReadFd b (SysOk data) = Some (n, e, b') ->
  inv b' /\ (n <= WritableBytes b -> size b' = size b).
Proof.
  intros Hb Hfit Hr. pose proof Hb as (Hr0 & Hw0 & Hs0).
  unfold readv_fits, ReadFd_iov, scratch_size in Hfit; simpl in Hfit.
  unfold ReadFd, BeginWrite in Hr. rewrite WritableBytes_inv in Hr, Hfit |- * by done.
  unfold size in *.
  destruct (Z.leb_spec (Z.of_nat (length data)) (Z.of_nat (length (buffer_ b)) - writePos_ b)).
  - injection Hr as <- _ <-. rewrite wrap_small by bounds.
    split; [apply inv_mk; rewrite ?length_copy_from; lia|].
    intros _. unfold size; simpl. by rewrite length_copy_from.
  - destruct (Append_ptr _ _ _) as [b1|] eqn:Ea; [|done].
    simpl in Hr. injection Hr as <- _ <-.
    set (W := Z.of_nat (length (buffer_ b)) - writePos_ b) in *.
    assert (Hinv : inv (mkBuffer (copy_from data (Z.to_nat W) (Z.to_nat (writePos_ b))
                                            (buffer_ b)) (readPos_ b)
                                 (Z.of_nat (length (buffer_ b)))))
      by (apply inv_mk; rewrite ?length_copy_from; lia).
    destruct (Append_ptr_ok _ (drop (Z.to_nat W) data) (Z.of_nat (length data) - W) b1 Hinv)
      as (Hi & _ & _);
      [rewrite length_drop; lia|simpl; unfold size_t_modulus, max_size in *; lia|done|].
    split; [done|lia].
Qed.

Lemma Buffer_new_empty_witness :
  Buffer_new (-1) = None /\
  exists b, Buffer_new 10 = Some b /\ WritableBytes b = 10 /\ readable b = [].
Proof.
  split; [apply (proj1 (Buffer_new_empty (-1))); lia|].
  destruct (proj2 (Buffer_new_empty 10)) as (b & E & _ & _ & Hw & _ & _ & Hrd);
    [unfold max_size; lia|].
  exists b. split; [exact E|]. split; [exact Hw|exact Hrd].
Defined.

Lemma Retrieve_within_witness :
  inv cx_buf /\ 0 <= 2 <= ReadableBytes cx_buf /\
  readable (Retrieve cx_buf 2) = drop 2 (readable cx_buf).
Proof.
  assert (Hi : inv cx_buf) by (unfold inv, cx_buf, size, max_size; simpl; lia).
  assert (Hl : 0 <= 2 <= ReadableBytes cx_buf) by (vm_compute; split; discriminate).
  split; [exact Hi|]. split; [exact Hl|].
  exact (proj2 (proj2 (proj2 (Retrieve_within cx_buf 2 Hi Hl)))).
Defined.

Lemma RetrieveUntil_spec_witness :
  inv cx_buf /\ RetrieveUntil cx_buf (-1) = None /\
  exists b', RetrieveUntil cx_buf 3 = Some b' /\ readPos_ b' = 3 /\
    readable b' = drop 3 (readable cx_buf).
Proof.
  assert (Hi : inv cx_buf) by (unfold inv, cx_buf, size, max_size; simpl; lia).
  split; [exact Hi|]. split.
  - apply (proj1 (RetrieveUntil_spec cx_buf (-1) Hi)). vm_compute. reflexivity.
  - destruct (proj2 (RetrieveUntil_spec cx_buf 3 Hi)) as (b' & E & _ & Hr & _ & Hrd);
      [vm_compute; split; discriminate|].
    exists b'. split; [exact E|]. split; [exact Hr|exact Hrd].
Defined.

Lemma RetrieveAll_spec_witness :
  inv cx_buf /\ readable (RetrieveAll cx_buf) = [] /\
  WritableBytes (RetrieveAll cx_buf) = 10.
Proof.
  assert (Hi : inv cx_buf) by (unfold inv, cx_buf, size, max_size; simpl; lia).
  split; [exact Hi|].
  destruct (RetrieveAll_spec cx_buf Hi) as (_ & _ & _ & _ & _ & Hw & Hrd).
  split; [exact Hrd|]. rewrite Hw. reflexivity.
Defined.

Lemma Append_no_alloc_witness :
  inv cx_drained2 /\
  exists b', Append cx_drained2 (hello ++ [Byte.x21; Byte.x21]) = Some b' /\
    size b' = 10 /\ readable b' = readable cx_drained2 ++ hello ++ [Byte.x21; Byte.x21].
Proof.
  assert (Hi : inv cx_drained2) by (unfold inv, cx_drained2, cx_buf, size, max_size; simpl; lia).
  split; [exact Hi|].
  destruct (Append_no_alloc cx_drained2 (hello ++ [Byte.x21; Byte.x21]) Hi)
    as (b' & E & Hs & _ & Hrd); [vm_compute; discriminate|].
  exists b'. split; [exact E|]. split; [exact Hs|exact Hrd].
Defined.

Lemma Append_grows_witness :
  inv cx_buf /\
  exists b', Append cx_buf (hello ++ [Byte.x21]) = Some b' /\ size b' = 12 /\
    readable b' = readable cx_buf ++ hello ++ [Byte.x21].
Proof.
  assert (Hi : inv cx_buf) by (unfold inv, cx_buf, size, max_size; simpl; lia).
  split; [exact Hi|].
  destruct (Append_grows cx_buf (hello ++ [Byte.x21]) Hi) as (b' & E & Hs & _ & Hrd);
    [vm_compute; reflexivity|vm_compute; discriminate|].
  exists b'. split; [exact E|]. split; [exact Hs|exact Hrd].
Defined.

Lemma EnsureWriteable_throws_witness :
  inv cx_buf /\ EnsureWriteable cx_buf max_size = None.
Proof.
  assert (Hi : inv cx_buf) by (unfold inv, cx_buf, size, max_size; simpl; lia).
  split; [exact Hi|].
  apply (EnsureWriteable_throws cx_buf max_size Hi);
    [vm_compute; reflexivity|vm_compute; reflexivity|vm_compute; reflexivity].
Defined.

Lemma Append_nil_witness : inv cx_buf /\ Append cx_buf [] = Some cx_buf.
Proof.
  assert (Hi : inv cx_buf) by (unfold inv, cx_buf, size, max_size; simpl; lia).
  split; [exact Hi|exact (Append_nil cx_buf Hi)].
Defined.

Lemma HasWritten_within_witness :
  inv cx_buf /\ 0 <= 3 <= WritableBytes cx_buf /\
  writePos_ (HasWritten cx_buf 3) = 8 /\
  readable (HasWritten cx_buf 3) = hello ++ [Byte.x00; Byte.x00; Byte.x00].
Proof.
  assert (Hi : inv cx_buf) by (unfold inv, cx_buf, size, max_size; simpl; lia).
  assert (Hl : 0 <= 3 <= WritableBytes cx_buf) by (vm_compute; split; discriminate).
  split; [exact Hi|]. split; [exact Hl|].
  destruct (HasWritten_within cx_buf 3 Hi Hl) as (_ & Hw & Hrd).
  split; [rewrite Hw; reflexivity|rewrite Hrd; vm_compute; reflexivity].
Defined.

Lemma Append_buf_spec_witness :
  inv cx_buf /\ inv cx_drained2 /\
  Append_buf cx_buf cx_drained2 =
    Some (mkBuffer (hello ++ [Byte.x6c; Byte.x6c; Byte.x6f; Byte.x00; Byte.x00]) 0 8) /\
  readable (mkBuffer (hello ++ [Byte.x6c; Byte.x6c; Byte.x6f; Byte.x00; Byte.x00]) 0 8)
    = readable cx_buf ++ readable cx_drained2.
Proof.
  assert (Hi : inv cx_buf) by (unfold inv, cx_buf, size, max_size; simpl; lia).
  assert (Ho : inv cx_drained2) by (unfold inv, cx_drained2, cx_buf, size, max_size; simpl; lia).
  assert (E : Append_buf cx_buf cx_drained2 =
    Some (mkBuffer (hello ++ [Byte.x6c; Byte.x6c; Byte.x6f; Byte.x00; Byte.x00]) 0 8))
    by (vm_compute; reflexivity).
  split; [exact Hi|]. split; [exact Ho|]. split; [exact E|].
  exact (proj2 (Append_buf_spec cx_buf cx_drained2 _ Hi Ho E)).
Defined.

Lemma RetrieveAllToStr_after_Append_witness :
  Buffer_new 10 = Some (mkBuffer (replicate 10 Byte.x00) 0 0) /\
  Append (mkBuffer (replicate 10 Byte.x00) 0 0) hello = Some cx_buf /\
  fst (RetrieveAllToStr cx_buf) = hello.
Proof.
  assert (Hn : Buffer_new 10 = Some (mkBuffer (replicate 10 Byte.x00) 0 0))
    by (vm_compute; reflexivity).
  assert (Ha : Append (mkBuffer (replicate 10 Byte.x00) 0 0) hello = Some cx_buf)
    by (vm_compute; reflexivity).
  split; [exact Hn|]. split; [exact Ha|].
  refine (proj1 (RetrieveAllToStr_after_Append 10 hello _ cx_buf Hn _ Ha)).
  vm_compute. discriminate.
Defined.

Lemma EnsureWriteable_in_range_witness :
  EnsureWriteable cx_drained2 7 =
    Some (mkBuffer [Byte.x6c; Byte.x6c; Byte.x6f; Byte.x6c; Byte.x6f;
                    Byte.x00; Byte.x00; Byte.x00; Byte.x00; Byte.x00] 0 3) /\
  readable (mkBuffer [Byte.x6c; Byte.x6c; Byte.x6f; Byte.x6c; Byte.x6f;
                      Byte.x00; Byte.x00; Byte.x00; Byte.x00; Byte.x00] 0 3)
    = readable cx_drained2.
Proof.
  assert (Hi : inv cx_drained2) by (unfold inv, cx_drained2, cx_buf, size, max_size; simpl; lia).
  assert (E : EnsureWriteable cx_drained2 7 =
    Some (mkBuffer [Byte.x6c; Byte.x6c; Byte.x6f; Byte.x6c; Byte.x6f;
                    Byte.x00; Byte.x00; Byte.x00; Byte.x00; Byte.x00] 0 3))
    by (vm_compute; reflexivity).
  split; [exact E|].
  refine (proj2 (proj2 (proj2 (EnsureWriteable_in_range cx_drained2 7 _ Hi _ _ E))));
    [lia|vm_compute; reflexivity].
Defined.

Lemma ReadFd_keeps_inv_witness :
  ReadFd cx_buf (SysOk rd_data) = Some (8, None, rd_result) /\ inv rd_result.
Proof.
  assert (Hi : inv cx_buf) by (unfold inv, cx_buf, size, max_size; simpl; lia).
  assert (Hf : readv_fits cx_buf rd_data) by (vm_compute; discriminate).
  assert (E : ReadFd cx_buf (SysOk rd_data) = Some (8, None, rd_result))
    by (vm_compute; reflexivity).
  split; [exact E|].
  exact (proj1 (ReadFd_keeps_inv cx_buf rd_data 8 None rd_result Hi Hf E)).
Defined.

(** * One [ReadFd] call on a descriptor with bytes ready *)

(** [Append(str, len)] returns whenever the resize it may need stays
    within [max_size()]. *)
Lemma Append_ptr_some b str len :
  inv b -> 0 <= len -> writePos_ b + len + 1 <= max_size ->
  exists b', Append_ptr b str len = Some b'.
Proof.
  intros Hb Hl Hm. pose proof Hb as (Hr & Hw & Hs).
  assert (HE : exists b1, EnsureWriteable b len = Some b1).
  { destruct (Z.leb_spec len (WritableBytes b)) as [Hle|Hgt].
    - exists b. by apply EnsureWriteable_noop.
    - destruct (Z.ltb_spec (WritableBytes b + PrependableBytes b) len) as [Hg|Hf].
      + eexists. by apply EnsureWriteable_grows.
      + destruct (EnsureWriteable_fits b len) as (b1 & E & _); [done|lia|eauto]. }
  destruct HE as [b1 E]. unfold Append_ptr. rewrite E. simpl. eauto.
Qed.

(** [ReadFd] on a descriptor with [pending] bytes ready reads
    [min(|pending|, WritableBytes() + 65535)] of them, and all of them,
    including those [readv] put in [buff], end up readable in order. *)
Lemma ReadFd_ready_spec b pending :
  inv b -> size b + 65536 <= max_size ->
  exists b', ReadFd_ready b pending =
    Some (Z.min (Z.of_nat (length pending)) (WritableBytes b + 65535), None, b') /\
    readable b' = readable b ++ take (Z.to_nat (WritableBytes b + 65535)) pending.
Proof.
  intros Hb Hm. pose proof Hb as (Hr & Hw & Hs).
  assert (HW : WritableBytes b = size b - writePos_ b) by (apply WritableBytes_inv; done).
  unfold ReadFd_ready, readv, ReadFd_iov, scratch_size.
  replace (fold_right Z.add 0 [WritableBytes b; 65535]) with (WritableBytes b + 65535)
    by (simpl; lia).
  set (data := take (Z.to_nat (WritableBytes b + 65535)) pending).
  assert (Hlen : Z.of_nat (length data) =
                 Z.min (Z.of_nat (length pending)) (WritableBytes b + 65535))
    by (unfold data; rewrite length_take; lia).
  assert (Hfit : readv_fits b data)
    by (unfold readv_fits, ReadFd_iov, scratch_size; simpl; lia).
  destruct (ReadFd b (SysOk data)) as [[[n e] b']|] eqn:E.
  - destruct (ReadFd_ok b data n e b' Hb Hfit E) as (Hn & He & _ & _ & Hrd).
    exists b'. rewrite Hn, He, Hlen. done.
  - exfalso. unfold ReadFd in E.
    destruct (Z.of_nat (length data) <=? WritableBytes b) eqn:Hc; [discriminate|].
    apply Z.leb_gt in Hc.
    destruct (Append_ptr _ _ _) eqn:Ea; [discriminate|].
    match type of Ea with
    | Append_ptr ?b0 ?s0 ?n0 = None =>
        destruct (Append_ptr_some b0 s0 n0) as [b2 Eb2]; [| | |rewrite Eb2 in Ea; discriminate]
    end.
    + apply inv_mk; rewrite ?length_copy_from; unfold size in *; lia.
    + lia.
    + unfold size in *; simpl; rewrite ?length_copy_from; lia.
Qed.

(** C9 counterexample: [ReadFd]'s second iovec is not 64 KiB.  With
    [WritableBytes() + 65536] or more bytes ready, a call does not read
    [WritableBytes() + 65536] of them: on [cx_buf] with 65541 bytes ready
    it reads 65540. *)
Lemma ReadFd_scratch_not_64KiB :
  ~ (forall b pending, inv b ->
       WritableBytes b + 65536 <= Z.of_nat (length pending) ->
       exists b', ReadFd_ready b pending = Some (WritableBytes b + 65536, None, b')).
Proof.
  intros H.
  assert (Hl : Z.of_nat (length pending_big) = 65541)
    by (unfold pending_big; rewrite length_replicate; lia).
  destruct (H cx_buf pending_big cx_buf_inv) as [b1 E1];
    [rewrite Hl; vm_compute; discriminate|].
  destruct (ReadFd_ready_spec cx_buf pending_big cx_buf_inv) as (b2 & E2 & _);
    [vm_compute; discriminate|].
  rewrite E1, Hl in E2. injection E2 as Hn _. vm_compute in Hn. discriminate.
Qed.

(** C9 (as amended): the second iovec of every [ReadFd] call is the local
    array [buff] of 65535 bytes, one byte less than 64 KiB: a call on a
    descriptor with [pending] bytes ready reads
    [min(|pending|, WritableBytes() + 65535)] of them, so exactly
    [WritableBytes() + 65535] when that many or more are ready.  Every
    byte [readv] put in [buff] is in the buffer's readable region when
    the call returns: nothing of [buff] is needed after the call. *)
Theorem ReadFd_scratch_65535 b pending :
  inv b -> size b + 65536 <= max_size ->
  ReadFd_iov b = [WritableBytes b; 65535] /\
  exists b', ReadFd_ready b pending =
    Some (Z.min (Z.of_nat (length pending)) (WritableBytes b + 65535), None, b') /\
    readable b' = readable b ++ take (Z.to_nat (WritableBytes b + 65535)) pending.
Proof.
  intros Hb Hm. split; [reflexivity|]. exact (ReadFd_ready_spec b pending Hb Hm).
Qed.

Lemma ReadFd_scratch_65535_witness :
  inv cx_buf /\ size cx_buf + 65536 <= max_size /\
  exists b', ReadFd_ready cx_buf pending_big = Some (65540, None, b') /\
    readable b' = hello ++ take (Z.to_nat 65540) pending_big.
Proof.
  assert (H2 : size cx_buf + 65536 <= max_size) by (vm_compute; discriminate).
  split; [exact cx_buf_inv|]. split; [exact H2|].
  destruct (ReadFd_scratch_65535 cx_buf pending_big cx_buf_inv H2) as (_ & b' & E & Hrd).
  assert (Hm : Z.min (Z.of_nat (length pending_big)) (WritableBytes cx_buf + 65535) = 65540)
    by (unfold pending_big; rewrite length_replicate, Z2Nat.id by lia; reflexivity).
  rewrite Hm in E. exists b'. split; [exact E|]. rewrite Hrd. reflexivity.
Defined.
